(** * The Streamlit proxy: connection registry and session lifecycle

    A shallow embedding of [lib/streamlit/proxy/Proxy.py].  The [Proxy]
    object keeps a table from report names to [ProxyConnection] objects
    and stops the Tornado event loop once that table is empty.

    Python objects are mutable and compared with [is], so the embedding
    keeps an explicit object store: a [ProxyConnection] is referred to by
    its address, the table [_connections] maps names to addresses, and
    [is] is equality of addresses.  Everything the methods do to the
    outside world (stopping the loop, opening a browser, scheduling a
    timer, sending the initial report message) is appended to a trace.
    [LOGGER.debug] calls have no effect on the state and are left out. *)

From stdpp Require Import gmap strings list fin_maps.

Open Scope string_scope.
Open Scope list_scope.
Open Scope nat_scope.

(** ** Objects *)

(** Address of a [ProxyConnection] object in the store. *)
Abbreviation oid := nat (only parsing).
(** Identity of a client queue and of a web socket. *)
Abbreviation qid := nat (only parsing).
Abbreviation wsid := nat (only parsing).

Module ProxyConnection.

(** State of the single upstream ("local") connection of a session. *)
Inductive producer_link := LinkOpen | LinkTerminated.

(** Modelled from the spec: the class [ProxyConnection] of
    [streamlit.proxy] is not part of the sources; its fields follow the
    Session record of the data model (name, id, producer link, observer
    queues, grace-period flag). *)
Record t := mk {
  name : string;
  id : string;
  producerLink : option producer_link;
  observerQueues : gset qid;
  inGracePeriod : bool
}.

Definition producer_gone (pc : t) : bool :=
  match producerLink pc with
  | None => true
  | Some LinkTerminated => true
  | Some LinkOpen => false
  end.

(** Modelled from the spec: [ProxyConnection.can_be_deregistered] is
    missing; a session is eligible for removal iff it has zero observer
    queues, its producer link is absent or has signaled termination, and
    it is not in its grace period. *)
Definition can_be_deregistered (pc : t) : bool :=
  bool_decide (observerQueues pc = ∅) && producer_gone pc
    && negb (inGracePeriod pc).

(** Modelled from the spec: [ProxyConnection.end_grace_period] is
    missing; on timer fire the session is marked [inGracePeriod = false]. *)
Definition end_grace_period (pc : t) : t :=
  mk (name pc) (id pc) (producerLink pc) (observerQueues pc) false.

(** Modelled from the spec: [ProxyConnection.add_client_queue] is
    missing; attaching adds a fresh outbound queue to the observer set. *)
Definition add_client_queue (q : qid) (pc : t) : t :=
  mk (name pc) (id pc) (producerLink pc) ({[q]} ∪ observerQueues pc)
     (inGracePeriod pc).

(** Modelled from the spec: [ProxyConnection.remove_client_queue] is
    missing; detaching removes the queue from the observer set. *)
Definition remove_client_queue (q : qid) (pc : t) : t :=
  mk (name pc) (id pc) (producerLink pc) (observerQueues pc ∖ {[q]})
     (inGracePeriod pc).

(** Modelled from the spec: the constructor is missing; a session is
    created when a producer connects, in its grace period and with no
    observer yet. *)
Definition new (n i : string) : t :=
  mk n i (Some LinkOpen) ∅ true.

(** Modelled from the spec: producer termination ([onProducerDisconnect])
    is missing from the sources; the producer link signals termination. *)
Definition close_local_connection (pc : t) : t :=
  mk (name pc) (id pc) (Some LinkTerminated) (observerQueues pc)
     (inGracePeriod pc).

End ProxyConnection.

(** ** The world the proxy runs in *)

(** Calls that leave the process: [IOLoop.current().stop()],
    [webbrowser.open] (through [_launch_web_client name]),
    [loop.call_later(timeout_secs, connection_timeout)] for the closure
    over [connection], and [new_report_msg(connection.id, ws)]. *)
Inductive event :=
| EvLoopStop
| EvLaunchWebClient (name : string)
| EvCallLater (connection : oid)
| EvNewReportMsg (id : string) (ws : wsid).

Global Instance event_eq_dec : EqDecision event.
Proof. solve_decision. Defined.

(** Fields [_connections] and [_stopped] are those of [Proxy.__init__];
    [store] holds the [ProxyConnection] objects, [trace] the calls made so
    far (oldest first) and [next_queue] the next unused queue identity. *)
Record world := World {
  _connections : gmap string oid;
  _stopped : bool;
  store : gmap oid ProxyConnection.t;
  trace : list event;
  next_queue : qid
}.

(** State of a freshly constructed [Proxy]: an empty table, not stopped. *)
Definition init : world := World ∅ false ∅ [] 0.

Definition set_connections (m : gmap string oid) (w : world) : world :=
  World m (_stopped w) (store w) (trace w) (next_queue w).
Definition set_stopped (b : bool) (w : world) : world :=
  World (_connections w) b (store w) (trace w) (next_queue w).
Definition set_store (h : gmap oid ProxyConnection.t) (w : world) : world :=
  World (_connections w) (_stopped w) h (trace w) (next_queue w).
Definition emit (e : event) (w : world) : world :=
  World (_connections w) (_stopped w) (store w) (trace w ++ [e]) (next_queue w).
Definition bump_queue (w : world) : world :=
  World (_connections w) (_stopped w) (store w) (trace w) (S (next_queue w)).

(** ** Python control flow: state, exceptions *)

Inductive exn :=
| KeyError (key : string)
| Exception (msg : string).

(** A call either returns, raises, or is [Wrong]: it was given the address
    of no object, which Python rules out. *)
Inductive outcome (A : Type) :=
| Ok (a : A) (w : world)
| Raise (e : exn) (w : world)
| Wrong.
Arguments Ok {A} a w.
Arguments Raise {A} e w.
Arguments Wrong {A}.

Definition M (A : Type) : Type := world → outcome A.

Definition ret {A} (a : A) : M A := fun w => Ok a w.
Definition raise {A} (e : exn) : M A := fun w => Raise e w.
Definition bind {A B} (k : A → M B) (m : M A) : M B :=
  fun w => match m w with
           | Ok a w' => k a w'
           | Raise e w' => Raise e w'
           | Wrong => Wrong
           end.

(** Sequencing is written [x ← m; k] and [m;; k]. *)
Global Instance M_ret : MRet M := @ret.
Global Instance M_bind : MBind M := @bind.

Definition get : M world := fun w => Ok w w.
Definition modify (f : world → world) : M unit := fun w => Ok tt (f w).

(** Attribute access on the object at address [c]. *)
Definition deref (c : oid) : M ProxyConnection.t :=
  fun w => match store w !! c with
           | Some pc => Ok pc w
           | None => Wrong
           end.

(** In-place mutation of the object at address [c]. *)
Definition mutate (c : oid) (f : ProxyConnection.t → ProxyConnection.t) : M unit :=
  pc ← deref c;
  modify (fun w => set_store (<[c := f pc]> (store w)) w).

(** [d[k]] and [del d[k]] on the table; both raise [KeyError] on a name
    that is not a key. *)
Definition connections_getitem (k : string) : M oid :=
  w ← get;
  match _connections w !! k with
  | Some c => ret c
  | None => raise (KeyError k)
  end.

Definition connections_delitem (k : string) : M unit :=
  w ← get;
  match _connections w !! k with
  | Some _ => modify (fun w => set_connections (delete k (_connections w)) w)
  | None => raise (KeyError k)
  end.

(** ** The functions of [Proxy.py] *)

Module Proxy.

Import ProxyConnection.

(** [Proxy.stop]: the event loop is stopped unless [_stopped] is set. *)
Definition stop : M unit :=
  w ← get;
  (if negb (_stopped w) then modify (emit EvLoopStop) else ret tt);;
  modify (set_stopped true).

(** [_launch_web_client]: opens the browser on the URL of report [name]. *)
Definition _launch_web_client (name : string) : M unit :=
  modify (emit (EvLaunchWebClient name)).

(** [Proxy.proxy_connection_is_registered]:
    [self._connections.get(connection.name, None) is connection]. *)
Definition proxy_connection_is_registered (connection : oid) : M bool :=
  pc ← deref connection;
  w ← get;
  ret (match _connections w !! name pc with
       | Some c => bool_decide (c = connection)
       | None => false
       end).

(** [Proxy.try_to_deregister_proxy_connection]. *)
Definition try_to_deregister_proxy_connection (connection : oid) : M unit :=
  registered ← proxy_connection_is_registered connection;
  if negb registered then ret tt
  else
    pc ← deref connection;
    if can_be_deregistered pc then connections_delitem (name pc)
    else ret tt.

(** [Proxy.potentially_stop]: [not self._connections] holds of the
    empty table only. *)
Definition potentially_stop : M unit :=
  w ← get;
  if bool_decide (_connections w = ∅) then stop else ret tt.

(** The closure [connection_timeout] of [register_proxy_connection],
    run by the event loop when the timer fires. *)
Definition connection_timeout (connection : oid) : M unit :=
  mutate connection end_grace_period;;
  try_to_deregister_proxy_connection connection;;
  potentially_stop.

(** [Proxy.register_proxy_connection]. *)
Definition register_proxy_connection (connection : oid) : M unit :=
  pc ← deref connection;
  w ← get;
  let new_name := bool_decide (_connections w !! name pc = None) in
  modify (fun w => set_connections (<[name pc := connection]> (_connections w)) w);;
  (if new_name then _launch_web_client (name pc) else ret tt);;
  modify (emit (EvCallLater connection)).

(** Modelled from the spec: [connection.add_client_queue()] belongs to
    the missing class; a new queue object is created, attached to the
    connection and returned. *)
Definition add_client_queue (connection : oid) : M qid :=
  w ← get;
  let queue := next_queue w in
  modify bump_queue;;
  mutate connection (ProxyConnection.add_client_queue queue);;
  ret queue.

(** [Proxy.add_client]; the coroutine is run to completion. *)
Definition add_client (report_name : string) (ws : wsid) : M (oid * qid) :=
  connection ← connections_getitem report_name;
  queue ← add_client_queue connection;
  pc ← deref connection;
  modify (emit (EvNewReportMsg (id pc) ws));;
  ret (connection, queue).

(** [Proxy.remove_client]. *)
Definition remove_client (connection : oid) (queue : qid) : M unit :=
  mutate connection (remove_client_queue queue);;
  try_to_deregister_proxy_connection connection;;
  potentially_stop.

(** [stop_proxy_on_exception(is_coroutine)(callback)], for a handler
    whose [_proxy] is this proxy.  In the coroutine branch the value is
    handed back through [gen.Return], which the first [except] clause
    lets through; any other exception stops the proxy and is raised
    again.  The plain branch does the same around a direct call. *)
Definition stop_proxy_on_exception {A} (is_coroutine : bool) (callback : M A) : M A :=
  if is_coroutine then
    fun w => match callback w with
             | Ok rv w' => Ok rv w'
             | Raise e w' => (stop;; raise e) w'
             | Wrong => Wrong
             end
  else
    fun w => match callback w with
             | Ok rv w' => Ok rv w'
             | Raise e w' => (stop;; raise e) w'
             | Wrong => Wrong
             end.

End Proxy.

(** ** Reading the trace *)

(** The names for which a browser was launched, in order. *)
Definition launches (evs : list event) : list string :=
  omap (fun e => match e with EvLaunchWebClient n => Some n | _ => None end) evs.

(** How often the event loop was stopped. *)
Definition loop_stops (evs : list event) : nat :=
  length (filter (fun e => e = EvLoopStop) evs).

(** ** Executions of the proxy *)

(** Creation of a [ProxyConnection] object at address [c]. *)
Definition alloc (c : oid) (pc : ProxyConnection.t) (w : world) : world :=
  set_store (<[c := pc]> (store w)) w.

(** What the event loop can make the proxy do: the calls of the web socket
    handlers and of the timers, handler bodies made of several calls, a
    body that fails on its own, and a body wrapped by
    [stop_proxy_on_exception]. *)
Inductive action :=
| NewConnection (c : oid) (name id : string)
| CloseLocalConnection (c : oid)
| Register (c : oid)
| TryToDeregister (c : oid)
| PotentiallyStop
| Stop
| AddClient (report_name : string) (ws : wsid)
| RemoveClient (c : oid) (q : qid)
| ConnectionTimeout (c : oid)
| Fail (e : exn)
| Seq (a b : action)
| Handler (is_coroutine : bool) (body : action).

Fixpoint exec (a : action) : M unit :=
  match a with
  | NewConnection c n i => modify (alloc c (ProxyConnection.new n i))
  | CloseLocalConnection c => mutate c ProxyConnection.close_local_connection
  | Register c => Proxy.register_proxy_connection c
  | TryToDeregister c => Proxy.try_to_deregister_proxy_connection c
  | PotentiallyStop => Proxy.potentially_stop
  | Stop => Proxy.stop
  | AddClient n ws => Proxy.add_client n ws;; mret tt
  | RemoveClient c q => Proxy.remove_client c q
  | ConnectionTimeout c => Proxy.connection_timeout c
  | Fail e => raise e
  | Seq a b => exec a;; exec b
  | Handler is_coroutine body => Proxy.stop_proxy_on_exception is_coroutine (exec body)
  end.

(** The world a call leaves behind, whether it returns or raises. *)
Definition after {A} (m : M A) (w : world) : world :=
  match m w with
  | Ok _ w' => w'
  | Raise _ w' => w'
  | Wrong => w
  end.

(** The event loop runs one action after the other; an exception that
    escapes an action ends that action only. *)
Definition run (script : list action) (w : world) : world :=
  foldl (fun w a => after (exec a) w) w script.

(** The calls of the registry that a handler or a timer makes, [stop]
    itself apart. *)
Definition registry_call (a : action) : bool :=
  match a with
  | Register _ | TryToDeregister _ | PotentiallyStop | AddClient _ _
  | RemoveClient _ _ | ConnectionTimeout _ => true
  | _ => false
  end.

(** ** Worlds used as concrete inputs *)

(** Two distinct objects with the same field values, the second one
    stored under their common name. *)
Definition twins : world :=
  set_connections {[ "report-a" := 2 ]}
    (alloc 2 (ProxyConnection.new "report-a" "s")
       (alloc 1 (ProxyConnection.new "report-a" "s") init)).

(** One session with a terminated producer, no observer, grace period
    over, registered under its name. *)
Definition idle : ProxyConnection.t :=
  ProxyConnection.mk "report-a" "s" (Some ProxyConnection.LinkTerminated) ∅ false.
Definition one_idle : world :=
  set_connections {[ "report-a" := 1 ]} (alloc 1 idle init).

(** One registered session whose producer has terminated and whose grace
    period is over, kept alive by a single observer queue. *)
Definition watched : ProxyConnection.t :=
  ProxyConnection.mk "report-a" "s" (Some ProxyConnection.LinkTerminated) {[ 0 ]} false.
Definition one_watched : world :=
  bump_queue (set_connections {[ "report-a" := 1 ]} (alloc 1 watched init)).

(** A proxy serving one report: its producer has connected and registered. *)
Definition serving : world :=
  run [NewConnection 1 "report-a" "s"; Register 1] init.

(** Modelled from the spec: the handler of the producer's web socket is
    not part of the sources; when the producer goes, the link terminates
    and the registry is asked again, as after a detach. *)
Definition producer_closes (c : oid) : action :=
  Seq (CloseLocalConnection c) (Seq (TryToDeregister c) PotentiallyStop).

(** A producer connects as [report-a]; an observer attaches within the
    grace period; the timer fires; the producer ends. *)
Definition observed : list action :=
  [ NewConnection 1 "report-a" "s"; Handler false (Register 1);
    Handler true (AddClient "report-a" 7); ConnectionTimeout 1;
    producer_closes 1 ].

(** A producer connects as [report-b] and ends; no observer ever comes. *)
Definition unobserved : list action :=
  [ NewConnection 1 "report-b" "s"; Handler false (Register 1);
    producer_closes 1 ].

(** A rerun: a second producer registers under the name of the first. *)
Definition rerun : list action :=
  [ NewConnection 1 "report-a" "s"; Handler false (Register 1);
    NewConnection 2 "report-a" "t"; Handler false (Register 2) ].

(** ** Pre- and postconditions on worlds *)

Definition triple {A} (P : world → Prop) (m : M A) (Q : world → Prop) : Prop :=
  ∀ w, P w → match m w with
             | Ok _ w' => Q w'
             | Raise _ w' => Q w'
             | Wrong => True
             end.

(** The loop has been stopped as often as [_stopped] says: once when the
    flag is set, never when it is not. *)
Definition stops_agree (w : world) : Prop :=
  loop_stops (trace w) = if _stopped w then 1 else 0.

(** The loop has been stopped [n] times; the same, unless the table is
    empty. *)
Definition stops_are (n : nat) (w : world) : Prop := loop_stops (trace w) = n.
Definition stops_are_or_empty (n : nat) (w : world) : Prop :=
  loop_stops (trace w) = n ∨ _connections w = ∅.

(** ** What the registry keeps true *)

(** The connections for which a timer was scheduled, in order. *)
Definition timers (evs : list event) : list oid :=
  omap (fun e => match e with EvCallLater c => Some c | _ => None end) evs.

(** Every key of the table is the name of the object stored under it. *)
Definition keys_are_names (w : world) : Prop :=
  ∀ n c, _connections w !! n = Some c →
         ∃ pc, store w !! c = Some pc ∧ ProxyConnection.name pc = n.

(** The addresses at which an action creates objects. *)
Fixpoint allocs (a : action) : list oid :=
  match a with
  | NewConnection c _ _ => [c]
  | Seq a b => allocs a ++ allocs b
  | Handler _ body => allocs body
  | _ => []
  end.

(** The actions made of [register_proxy_connection],
    [try_to_deregister_proxy_connection], [potentially_stop], [stop] and
    [connection_timeout] only. *)
Fixpoint registry_only (a : action) : bool :=
  match a with
  | Register _ | TryToDeregister _ | PotentiallyStop | Stop
  | ConnectionTimeout _ => true
  | Seq a b => registry_only a && registry_only b
  | Handler _ body => registry_only body
  | _ => false
  end.

(** A call that raised. *)
Definition raised {A} (o : outcome A) : bool :=
  match o with
  | Raise _ _ => true
  | _ => false
  end.

(** None of the addresses [cs] holds an object. *)
Definition unused (cs : list oid) (w : world) : Prop :=
  ∀ c, c ∈ cs → store w !! c = None.

(** For every entry of the table a browser was launched for its name and
    a timer was scheduled for its connection. *)
Definition announced (w : world) : Prop :=
  ∀ n c, _connections w !! n = Some c →
         n ∈ launches (trace w) ∧ c ∈ timers (trace w).

(** ** Running a sequence of calls *)

Lemma bind_eq {A B} (m : M A) (k : A → M B) (w : world) :
  (m ≫= k) w = match m w with
               | Ok a w' => k a w'
               | Raise e w' => Raise e w'
               | Wrong => Wrong
               end.
Proof. reflexivity. Qed.

Lemma bind_Ok {A B} (m : M A) (k : A → M B) (w w' : world) (a : A) :
  m w = Ok a w' → (m ≫= k) w = k a w'.
Proof. intros H. rewrite bind_eq, H. reflexivity. Qed.

Lemma bind_Raise {A B} (m : M A) (k : A → M B) (w w' : world) (e : exn) :
  m w = Raise e w' → (m ≫= k) w = Raise e w'.
Proof. intros H. rewrite bind_eq, H. reflexivity. Qed.

Lemma deref_Ok (c : oid) (pc : ProxyConnection.t) (w : world) :
  store w !! c = Some pc → deref c w = Ok pc w.
Proof. intros H. unfold deref. rewrite H. reflexivity. Qed.

Lemma mutate_Ok (c : oid) f (pc : ProxyConnection.t) (w : world) :
  store w !! c = Some pc →
  mutate c f w = Ok tt (set_store (<[c := f pc]> (store w)) w).
Proof. intros H. unfold mutate. rewrite (bind_Ok _ _ _ _ _ (deref_Ok _ _ _ H)). reflexivity. Qed.

Section Triples.

Context {A B : Type}.
Implicit Types P Q R : world → Prop.

Lemma triple_ret P (a : A) : triple P (mret a) P.
Proof. by intros w H. Qed.

Lemma triple_raise P (e : exn) : triple P (@raise A e) P.
Proof. by intros w H. Qed.

Lemma triple_get P : triple P get P.
Proof. by intros w H. Qed.

Lemma triple_deref P (c : oid) : triple P (deref c) P.
Proof. intros w H. unfold deref. by destruct (store w !! c). Qed.

Lemma triple_modify P Q (f : world → world) :
  (∀ w, P w → Q (f w)) → triple P (modify f) Q.
Proof. intros Hf w H. by apply Hf. Qed.

Lemma triple_bind P Q R (m : M A) (k : A → M B) :
  triple P m R → (∀ w, R w → Q w) → (∀ a, triple R (k a) Q) →
  triple P (m ≫= k) Q.
Proof.
  intros Hm HRQ Hk w H. rewrite bind_eq. specialize (Hm w H).
  destruct (m w) as [a w'|e w'|]; [by apply Hk|by apply HRQ|done].
Qed.

Lemma triple_weaken P Q Q' (m : M A) :
  triple P m Q → (∀ w, Q w → Q' w) → triple P m Q'.
Proof.
  intros Hm HQ w H. specialize (Hm w H).
  destruct (m w); auto.
Qed.

End Triples.

(** A call that keeps [P]: binds of such calls keep it. *)
Lemma keeps_bind {A B} (P : world → Prop) (m : M A) (k : A → M B) :
  triple P m P → (∀ a, triple P (k a) P) → triple P (m ≫= k) P.
Proof. intros Hm Hk. by apply (triple_bind P P P). Qed.

Ltac keeps :=
  repeat match goal with
  | |- triple _ (mbind _ _) _ => apply keeps_bind; [|intros ?]
  | |- triple _ (mret _) _ => apply triple_ret
  | |- triple _ (ret _) _ => apply triple_ret
  | |- triple _ (raise _) _ => apply triple_raise
  | |- triple _ get _ => apply triple_get
  | |- triple _ (deref _) _ => apply triple_deref
  | |- triple _ (if ?b then _ else _) _ => destruct b
  | |- triple _ (match ?x with Some _ => _ | None => _ end) _ => destruct x
  end.

Section Registry.

Import Proxy ProxyConnection.

(** What [proxy_connection_is_registered] computes, on any world that
    holds the object. *)
Lemma is_registered_eval (w : world) (c : oid) (pc : t) :
  store w !! c = Some pc →
  proxy_connection_is_registered c w
  = Ok (match _connections w !! name pc with
        | Some c' => bool_decide (c' = c)
        | None => false
        end) w.
Proof.
  intros H. unfold proxy_connection_is_registered.
  rewrite (bind_Ok _ _ _ _ _ (deref_Ok _ _ _ H)). reflexivity.
Qed.

Lemma is_registered_true (w : world) (c : oid) (pc : t) :
  store w !! c = Some pc →
  _connections w !! name pc = Some c →
  proxy_connection_is_registered c w = Ok true w.
Proof.
  intros H Hc. rewrite (is_registered_eval _ _ _ H), Hc.
  by rewrite bool_decide_eq_true_2.
Qed.

Lemma is_registered_false (w : world) (c : oid) (pc : t) :
  store w !! c = Some pc →
  _connections w !! name pc ≠ Some c →
  proxy_connection_is_registered c w = Ok false w.
Proof.
  intros H Hc. rewrite (is_registered_eval _ _ _ H).
  destruct (_connections w !! name pc) as [c'|]; [|done].
  rewrite bool_decide_eq_false_2; [done|]. congruence.
Qed.

(** The eligibility predicate, spelled out. *)
Lemma can_be_deregistered_true (pc : t) :
  can_be_deregistered pc = true ↔
  observerQueues pc = ∅ ∧ producerLink pc ≠ Some LinkOpen ∧ inGracePeriod pc = false.
Proof.
  unfold can_be_deregistered, producer_gone.
  rewrite !andb_true_iff, bool_decide_eq_true, negb_true_iff.
  destruct (producerLink pc) as [[]|]; intuition congruence.
Qed.

Lemma try_to_deregister_removes (w : world) (c : oid) (pc : t) :
  store w !! c = Some pc →
  _connections w !! name pc = Some c →
  can_be_deregistered pc = true →
  try_to_deregister_proxy_connection c w
  = Ok tt (set_connections (delete (name pc) (_connections w)) w).
Proof.
  intros H Hc He. unfold try_to_deregister_proxy_connection.
  rewrite (bind_Ok _ _ _ _ _ (is_registered_true _ _ _ H Hc)). simpl.
  rewrite (bind_Ok _ _ _ _ _ (deref_Ok _ _ _ H)), He.
  unfold connections_delitem. rewrite bind_eq. simpl. by rewrite Hc.
Qed.

Lemma try_to_deregister_unregistered (w : world) (c : oid) (pc : t) :
  store w !! c = Some pc →
  _connections w !! name pc ≠ Some c →
  try_to_deregister_proxy_connection c w = Ok tt w.
Proof.
  intros H Hc. unfold try_to_deregister_proxy_connection.
  by rewrite (bind_Ok _ _ _ _ _ (is_registered_false _ _ _ H Hc)).
Qed.

Lemma try_to_deregister_ineligible (w : world) (c : oid) (pc : t) :
  store w !! c = Some pc →
  can_be_deregistered pc = false →
  try_to_deregister_proxy_connection c w = Ok tt w.
Proof.
  intros H He. unfold try_to_deregister_proxy_connection.
  rewrite (bind_Ok _ _ _ _ _ (is_registered_eval _ _ _ H)).
  destruct (match _connections w !! name pc with
            | Some c' => bool_decide (c' = c) | None => false end); simpl; [|done].
  by rewrite (bind_Ok _ _ _ _ _ (deref_Ok _ _ _ H)), He.
Qed.

(** C8. [proxy_connection_is_registered c] answers true exactly when the
    table holds, under the name of [c], the very object [c] (the same
    address): it answers false when another object is stored under that
    name, whatever its field values, and when the name is not a key. *)
Theorem proxy_connection_is_registered_identity (w : world) (c : oid) (pc : t) :
  store w !! c = Some pc →
  ∃ b : bool,
    proxy_connection_is_registered c w = Ok b w
    ∧ (b = true ↔ _connections w !! name pc = Some c)
    ∧ (∀ c', _connections w !! name pc = Some c' → c' ≠ c → b = false)
    ∧ (_connections w !! name pc = None → b = false).
Proof.
  intros H. eexists. split; [apply (is_registered_eval _ _ _ H)|].
  destruct (_connections w !! name pc) as [c'|] eqn:E.
  - repeat split.
    + intros Hb%bool_decide_eq_true. by subst.
    + intros [= ->]. by apply bool_decide_eq_true.
    + intros c'' [= <-] Hne. by apply bool_decide_eq_false.
    + done.
  - repeat split; try done.
Qed.

Lemma proxy_connection_is_registered_identity_witness :
  ∃ b : bool,
    proxy_connection_is_registered 1 twins = Ok b twins
    ∧ (b = true ↔ _connections twins !! "report-a" = Some 1)
    ∧ (∀ c', _connections twins !! "report-a" = Some c' → c' ≠ 1 → b = false)
    ∧ (_connections twins !! "report-a" = None → b = false).
Proof.
  apply (proxy_connection_is_registered_identity twins 1 (new "report-a" "s")).
  reflexivity.
Defined.

(** C1. [try_to_deregister_proxy_connection c] always returns; it deletes
    the entry under the name of [c] when [c] is the object stored there
    and [c] has no observer queue, no live producer and is out of its
    grace period, and it leaves the whole world as it was in every other
    case.  So the table changes if and only if both conditions hold. *)
Theorem try_to_deregister_iff (w : world) (c : oid) (pc : t) :
  store w !! c = Some pc →
  let current := _connections w !! name pc = Some c in
  let eligible := observerQueues pc = ∅ ∧ producerLink pc ≠ Some LinkOpen
                  ∧ inGracePeriod pc = false in
  ∃ w', try_to_deregister_proxy_connection c w = Ok tt w'
    ∧ (current ∧ eligible →
         w' = set_connections (delete (name pc) (_connections w)) w
         ∧ _connections w' !! name pc = None)
    ∧ (¬ (current ∧ eligible) → w' = w)
    ∧ (_connections w' ≠ _connections w ↔ current ∧ eligible).
Proof.
  intros H current eligible. subst current eligible. cbv zeta.
  pose proof (can_be_deregistered_true pc) as Hel.
  destruct (decide (_connections w !! name pc = Some c)) as [Hc|Hc].
  - destruct (can_be_deregistered pc) eqn:He.
    + eexists. split; [by apply try_to_deregister_removes|].
      assert (delete (name pc) (_connections w) ≠ _connections w) as Hne.
      { intros Heq.
        assert (delete (name pc) (_connections w) !! name pc = Some c) as Hd
          by (by rewrite Heq).
        by rewrite lookup_delete_eq in Hd. }
      split; [|split; [|split]].
      * intros _. split; [done|]. simpl. apply lookup_delete_eq.
      * intros Hn. destruct Hn. split; [done|]. by apply Hel.
      * intros _. split; [done|]. by apply Hel.
      * intros _. exact Hne.
    + assert (¬ (observerQueues pc = ∅ ∧ producerLink pc ≠ Some LinkOpen
                 ∧ inGracePeriod pc = false)) as Hno.
      { intros Hyes. apply Hel in Hyes. discriminate. }
      exists w. split; [by apply (try_to_deregister_ineligible _ _ pc)|].
      split; [|split; [|split]]; try done.
      * by intros [_ ?].
      * by intros [_ ?].
  - exists w. split; [by apply (try_to_deregister_unregistered _ _ pc)|].
    split; [|split; [|split]]; try done.
    * by intros [? _].
    * by intros [? _].
Qed.

Lemma try_to_deregister_iff_witness :
  ∃ w', try_to_deregister_proxy_connection 1 one_idle = Ok tt w'
    ∧ _connections w' !! "report-a" = None.
Proof.
  destruct (try_to_deregister_iff one_idle 1 idle) as (w' & Hrun & Hrm & _).
  - reflexivity.
  - exists w'. split; [exact Hrun|]. apply Hrm.
    split; [reflexivity|].
    split; [reflexivity|]. split; [discriminate|reflexivity].
Defined.

Lemma register_eval (w : world) (c : oid) (pc : t) :
  store w !! c = Some pc →
  register_proxy_connection c w
  = Ok tt
      (emit (EvCallLater c)
         ((if bool_decide (_connections w !! name pc = None)
           then emit (EvLaunchWebClient (name pc)) else (fun w => w))
            (set_connections (<[name pc := c]> (_connections w)) w))).
Proof.
  intros H. unfold register_proxy_connection.
  rewrite (bind_Ok _ _ _ _ _ (deref_Ok _ _ _ H)).
  rewrite !bind_eq. simpl.
  by destruct (bool_decide (_connections w !! name pc = None)).
Qed.

Lemma register_Ok (w : world) (c : oid) (pc : t) :
  store w !! c = Some pc →
  ∃ w', register_proxy_connection c w = Ok tt w'
    ∧ _connections w' = <[name pc := c]> (_connections w)
    ∧ store w' = store w
    ∧ _stopped w' = _stopped w.
Proof.
  intros H. eexists. split; [apply (register_eval _ _ _ H)|].
  by destruct (bool_decide (_connections w !! name pc = None)).
Qed.

(** C10. Both registry operations touch the key of their argument only:
    after [try_to_deregister_proxy_connection c] and after
    [register_proxy_connection c] every other name is mapped as before. *)
Theorem registry_frame (w : world) (c : oid) (pc : t) (m : string) :
  store w !! c = Some pc →
  m ≠ name pc →
  (∃ w', try_to_deregister_proxy_connection c w = Ok tt w'
         ∧ _connections w' !! m = _connections w !! m
         ∧ (_connections w' = _connections w
            ∨ _connections w' = delete (name pc) (_connections w)))
  ∧ (∃ w', register_proxy_connection c w = Ok tt w'
           ∧ _connections w' !! m = _connections w !! m
           ∧ _connections w' = <[name pc := c]> (_connections w)).
Proof.
  intros H Hm. split.
  - unfold try_to_deregister_proxy_connection.
    rewrite (bind_Ok _ _ _ _ _ (is_registered_eval _ _ _ H)).
    destruct (_connections w !! name pc) as [c'|] eqn:E; simpl;
      [destruct (bool_decide (c' = c)); simpl|]; try by (exists w; auto).
    rewrite (bind_Ok _ _ _ _ _ (deref_Ok _ _ _ H)).
    destruct (can_be_deregistered pc); [|by (exists w; auto)].
    unfold connections_delitem. rewrite bind_eq. simpl. rewrite E.
    eexists. split; [reflexivity|]. simpl. split; [|by right].
    by apply lookup_delete_ne.
  - eexists. split; [apply (register_eval _ _ _ H)|].
    destruct (bool_decide (_connections w !! name pc = None)); simpl;
      (split; [by apply lookup_insert_ne|done]).
Qed.

Lemma registry_frame_witness :
  (∃ w', try_to_deregister_proxy_connection 1 one_idle = Ok tt w'
         ∧ _connections w' !! "report-b" = _connections one_idle !! "report-b"
         ∧ (_connections w' = _connections one_idle
            ∨ _connections w' = delete (name idle) (_connections one_idle)))
  ∧ (∃ w', register_proxy_connection 1 one_idle = Ok tt w'
           ∧ _connections w' !! "report-b" = _connections one_idle !! "report-b"
           ∧ _connections w' = <[name idle := 1]> (_connections one_idle)).
Proof.
  apply (registry_frame one_idle 1 idle "report-b").
  - reflexivity.
  - discriminate.
Defined.

(** C2. Registering [p1] and then [p2] under the same name [n] leaves one
    entry under [n], the object [p2]: the table is the one obtained by
    registering [p2] alone, [p2] is the only object named [n] that is
    registered, and [p1], when it is another object, is not registered
    any more. *)
Theorem register_twice_latest_wins
    (w : world) (n : string) (p1 p2 : oid) (pc1 pc2 : t) :
  store w !! p1 = Some pc1 →
  store w !! p2 = Some pc2 →
  name pc1 = n →
  name pc2 = n →
  ∃ w', (register_proxy_connection p1;; register_proxy_connection p2) w = Ok tt w'
    ∧ _connections w' = <[n := p2]> (_connections w)
    ∧ _connections w' !! n = Some p2
    ∧ proxy_connection_is_registered p2 w' = Ok true w'
    ∧ (p1 ≠ p2 → proxy_connection_is_registered p1 w' = Ok false w')
    ∧ (∀ c pc, store w' !! c = Some pc → name pc = n →
         proxy_connection_is_registered c w' = Ok (bool_decide (c = p2)) w').
Proof.
  intros H1 H2 Hn1 Hn2.
  destruct (register_Ok w p1 pc1 H1) as (w1 & R1 & Hc1 & Hs1 & _).
  assert (store w1 !! p2 = Some pc2) as H2' by (by rewrite Hs1).
  destruct (register_Ok w1 p2 pc2 H2') as (w2 & R2 & Hc2 & Hs2 & _).
  assert (_connections w2 = <[n := p2]> (_connections w)) as Hc.
  { rewrite Hc2, Hc1, Hn1, Hn2. apply insert_insert_eq. }
  assert (_connections w2 !! n = Some p2) as Hl.
  { rewrite Hc. apply lookup_insert_eq. }
  assert (∀ c pc, store w2 !! c = Some pc → name pc = n →
            proxy_connection_is_registered c w2 = Ok (bool_decide (c = p2)) w2) as Hall.
  { intros c pc Hs Hn. rewrite (is_registered_eval _ _ _ Hs), Hn, Hl.
    do 2 f_equal. apply bool_decide_ext. split; congruence. }
  exists w2. split.
  { by rewrite (bind_Ok _ _ _ _ _ R1). }
  split; [done|]. split; [done|]. split; [|split; [|done]].
  - rewrite (Hall p2 pc2); [|by rewrite Hs2|done].
    by rewrite bool_decide_eq_true_2.
  - intros Hne. rewrite (Hall p1 pc1); [|by rewrite Hs2, Hs1|done].
    by rewrite bool_decide_eq_false_2.
Qed.

Lemma register_twice_latest_wins_witness :
  ∃ w', (register_proxy_connection 1;; register_proxy_connection 2) twins = Ok tt w'
    ∧ _connections w' !! "report-a" = Some 2
    ∧ proxy_connection_is_registered 2 w' = Ok true w'
    ∧ proxy_connection_is_registered 1 w' = Ok false w'.
Proof.
  destruct (register_twice_latest_wins twins "report-a" 1 2
              (new "report-a" "s") (new "report-a" "s"))
    as (w' & Hrun & _ & Hl & Hp2 & Hp1 & _); try reflexivity.
  exists w'. repeat split; try done. apply Hp1. discriminate.
Defined.

(** C5. [register_proxy_connection c] launches the browser if and only
    if the name of [c] was not a key of the table just before: then it
    is launched once, for that name; when the name was a key (a
    replacing registration) nothing is launched. *)
Theorem launch_iff_new_name (w : world) (c : oid) (pc : t) :
  store w !! c = Some pc →
  ∃ w' evs, register_proxy_connection c w = Ok tt w'
    ∧ trace w' = (trace w ++ evs)%list
    ∧ (_connections w !! name pc = None → launches evs = [name pc])
    ∧ (is_Some (_connections w !! name pc) → launches evs = [])
    ∧ (launches evs ≠ [] ↔ _connections w !! name pc = None).
Proof.
  intros H.
  destruct (_connections w !! name pc) as [c'|] eqn:E.
  - exists (emit (EvCallLater c)
              (set_connections (<[name pc := c]> (_connections w)) w)),
           [EvCallLater c].
    split; [|split; [done|]].
    { rewrite (register_eval _ _ _ H), E.
      by rewrite bool_decide_eq_false_2. }
    split; [done|]. split; [done|]. split; [by intros []|done].
  - exists (emit (EvCallLater c) (emit (EvLaunchWebClient (name pc))
              (set_connections (<[name pc := c]> (_connections w)) w))),
           [EvLaunchWebClient (name pc); EvCallLater c].
    split; [|split].
    { rewrite (register_eval _ _ _ H), E.
      by rewrite bool_decide_eq_true_2. }
    { simpl. by rewrite <- app_assoc. }
    split; [done|]. split; [by intros [? [=]]|]. split; [done|].
    intros _. simpl. discriminate.
Qed.

Lemma launch_iff_new_name_witness :
  ∃ w' evs, register_proxy_connection 1 twins = Ok tt w'
    ∧ trace w' = (trace twins ++ evs)%list
    ∧ launches evs = [].
Proof.
  destruct (launch_iff_new_name twins 1 (new "report-a" "s"))
    as (w' & evs & Hrun & Ht & _ & Hrep & _); [reflexivity|].
  exists w', evs. repeat split; try done. apply Hrep. by exists 2.
Defined.

End Registry.

Section Lifecycle.

Import Proxy ProxyConnection.

Lemma stop_eval (w : world) :
  stop w = Ok tt (set_stopped true (if _stopped w then w else emit EvLoopStop w)).
Proof. unfold stop. rewrite !bind_eq. simpl. by destruct (_stopped w). Qed.

Lemma set_stopped_id (w : world) : _stopped w = true → set_stopped true w = w.
Proof. destruct w as [m s h t q]. simpl. by intros ->. Qed.

Lemma stop_stopped (w : world) : _stopped w = true → stop w = Ok tt w.
Proof. intros H. rewrite stop_eval, H. by rewrite set_stopped_id. Qed.

Lemma potentially_stop_nonempty (w : world) :
  _connections w ≠ ∅ → potentially_stop w = Ok tt w.
Proof.
  intros H. unfold potentially_stop. rewrite bind_eq. simpl.
  by rewrite bool_decide_eq_false_2.
Qed.

Lemma potentially_stop_empty (w : world) :
  _connections w = ∅ → potentially_stop w = stop w.
Proof.
  intros H. unfold potentially_stop. rewrite bind_eq. simpl.
  by rewrite bool_decide_eq_true_2.
Qed.

(** [potentially_stop] always returns, and never touches the table or
    the objects. *)
Lemma potentially_stop_Ok (w : world) :
  ∃ w', potentially_stop w = Ok tt w'
    ∧ _connections w' = _connections w ∧ store w' = store w.
Proof.
  destruct (decide (_connections w = ∅)) as [E|E].
  - rewrite (potentially_stop_empty _ E), stop_eval. eexists. split; [done|].
    by destruct (_stopped w).
  - rewrite (potentially_stop_nonempty _ E). by exists w.
Qed.

(** [try_to_deregister_proxy_connection] always returns, touching
    nothing but the table. *)
Lemma try_to_deregister_Ok (w : world) (c : oid) (pc : t) :
  store w !! c = Some pc →
  ∃ w', try_to_deregister_proxy_connection c w = Ok tt w'
    ∧ store w' = store w ∧ _stopped w' = _stopped w ∧ trace w' = trace w
    ∧ (_connections w !! name pc ≠ Some c → w' = w)
    ∧ (_connections w !! name pc = Some c → can_be_deregistered pc = true →
         _connections w' = delete (name pc) (_connections w)).
Proof.
  intros H.
  destruct (decide (_connections w !! name pc = Some c)) as [Hc|Hc].
  - destruct (can_be_deregistered pc) eqn:He.
    + rewrite (try_to_deregister_removes _ _ _ H Hc He). eexists.
      split; [done|]. by repeat split.
    + rewrite (try_to_deregister_ineligible _ _ _ H He). exists w.
      by repeat split.
  - rewrite (try_to_deregister_unregistered _ _ _ H Hc). exists w.
    by repeat split.
Qed.

Lemma mutate_lookup (w : world) (c : oid) f (pc : t) :
  store w !! c = Some pc →
  store (set_store (<[c := f pc]> (store w)) w) !! c = Some (f pc).
Proof. intros _. simpl. apply lookup_insert_eq. Qed.

(** The common shape of [connection_timeout] and [remove_client]: the
    object is changed in place, then the registry is asked to drop it,
    then the proxy to stop. *)
Lemma mutate_then_reap (w : world) (c : oid) (f : t → t) (pc : t) :
  store w !! c = Some pc →
  name (f pc) = name pc →
  ∃ w1 w2 w3,
    mutate c f w = Ok tt w1
    ∧ store w1 !! c = Some (f pc)
    ∧ _connections w1 = _connections w
    ∧ try_to_deregister_proxy_connection c w1 = Ok tt w2
    ∧ potentially_stop w2 = Ok tt w3
    ∧ (mutate c f;; try_to_deregister_proxy_connection c;; potentially_stop) w
      = Ok tt w3
    ∧ (_connections w !! name pc ≠ Some c → _connections w3 = _connections w)
    ∧ (_connections w !! name pc = Some c → can_be_deregistered (f pc) = true →
       _connections w3 = delete (name pc) (_connections w)
       ∧ (delete (name pc) (_connections w) = ∅ →
          _stopped w3 = true
          ∧ trace w3 = if _stopped w then trace w else trace w ++ [EvLoopStop])).
Proof.
  intros H Hname.
  pose proof (mutate_Ok c f pc w H) as Hm.
  set (w1 := set_store (<[c := f pc]> (store w)) w) in *.
  assert (store w1 !! c = Some (f pc)) as H1 by apply (mutate_lookup _ _ _ _ H).
  destruct (try_to_deregister_Ok w1 c _ H1)
    as (w2 & Ht & _ & Hs2 & Ht2 & Hstale & Hrm).
  rewrite Hname in Hstale, Hrm.
  destruct (potentially_stop_Ok w2) as (w3 & Hp & Hc3 & _).
  exists w1, w2, w3.
  split; [done|]. split; [done|]. split; [done|]. split; [done|].
  split; [done|]. split.
  { rewrite (bind_Ok _ _ _ _ _ Hm). by rewrite (bind_Ok _ _ _ _ _ Ht). }
  split.
  { intros Hne. by rewrite Hc3, (Hstale Hne). }
  intros Hcur Hel. specialize (Hrm Hcur Hel).
  split; [by rewrite Hc3|]. intros Hlast.
  rewrite potentially_stop_empty, stop_eval in Hp by (by rewrite Hrm).
  injection Hp as <-.
  change (trace w) with (trace w1). change (_stopped w) with (_stopped w1).
  rewrite <- Ht2, <- Hs2. by destruct (_stopped w2).
Qed.

(** C4. When the grace-period timer of [c] fires, [connection_timeout]
    runs three steps, each on the world left by the one before: it
    clears the grace-period flag of [c], calls
    [try_to_deregister_proxy_connection c], then [potentially_stop].  If
    [c] is not the object stored under its name any more (replaced or
    removed), the table is left as it was; if it is, and nothing but the
    grace period kept it, its entry is deleted by this fire. *)
Theorem connection_timeout_steps (w : world) (c : oid) (pc : t) :
  store w !! c = Some pc →
  ∃ w1 w2 w3,
    mutate c end_grace_period w = Ok tt w1
    ∧ store w1 !! c = Some (end_grace_period pc)
    ∧ inGracePeriod (end_grace_period pc) = false
    ∧ _connections w1 = _connections w
    ∧ try_to_deregister_proxy_connection c w1 = Ok tt w2
    ∧ potentially_stop w2 = Ok tt w3
    ∧ connection_timeout c w = Ok tt w3
    ∧ (_connections w !! name pc ≠ Some c → _connections w3 = _connections w)
    ∧ (_connections w !! name pc = Some c →
       observerQueues pc = ∅ → producerLink pc ≠ Some LinkOpen →
       _connections w3 = delete (name pc) (_connections w)).
Proof.
  intros H.
  destruct (mutate_then_reap w c end_grace_period pc H eq_refl)
    as (w1 & w2 & w3 & Hm & H1 & Hc1 & Ht & Hp & Hrun & Hstale & Hrm).
  exists w1, w2, w3.
  split; [done|]. split; [done|]. split; [done|]. split; [done|].
  split; [done|]. split; [done|]. split; [done|]. split; [done|].
  intros Hcur Hq Hl. apply Hrm; [done|].
  by apply can_be_deregistered_true.
Qed.

(** C9. [remove_client c q] runs three steps, each on the world left by
    the one before: it removes [q] from the queues of [c], calls
    [try_to_deregister_proxy_connection c], then [potentially_stop].  So
    a detach after which [c] is registered and eligible deletes the
    entry of [c], and if that entry was the last one the event loop is
    stopped within the same call (once, unless it was stopped before). *)
Theorem remove_client_steps (w : world) (c : oid) (q : qid) (pc : t) :
  store w !! c = Some pc →
  ∃ w1 w2 w3,
    mutate c (remove_client_queue q) w = Ok tt w1
    ∧ store w1 !! c = Some (remove_client_queue q pc)
    ∧ observerQueues (remove_client_queue q pc) = observerQueues pc ∖ {[q]}
    ∧ try_to_deregister_proxy_connection c w1 = Ok tt w2
    ∧ potentially_stop w2 = Ok tt w3
    ∧ remove_client c q w = Ok tt w3
    ∧ (_connections w !! name pc = Some c →
       can_be_deregistered (remove_client_queue q pc) = true →
       _connections w3 = delete (name pc) (_connections w)
       ∧ (delete (name pc) (_connections w) = ∅ →
          _stopped w3 = true
          ∧ trace w3 = if _stopped w then trace w else trace w ++ [EvLoopStop])).
Proof.
  intros H.
  destruct (mutate_then_reap w c (remove_client_queue q) pc H eq_refl)
    as (w1 & w2 & w3 & Hm & H1 & Hc1 & Ht & Hp & Hrun & Hstale & Hrm).
  exists w1, w2, w3.
  split; [done|]. split; [done|]. split; [done|]. split; [done|].
  split; [done|]. split; [done|]. exact Hrm.
Qed.

(** A stale timer: object 1 was replaced by object 2 under its name. *)
Lemma connection_timeout_steps_witness :
  ∃ w3, connection_timeout 1 twins = Ok tt w3
        ∧ _connections w3 = _connections twins.
Proof.
  destruct (connection_timeout_steps twins 1 (new "report-a" "s"))
    as (w1 & w2 & w3 & _ & _ & _ & _ & _ & _ & Hrun & Hstale & _); [reflexivity|].
  exists w3. split; [exact Hrun|]. apply Hstale. discriminate.
Defined.

(** The last observer of the last session detaches. *)
Lemma remove_client_steps_witness :
  ∃ w3, remove_client 1 0 one_watched = Ok tt w3
        ∧ _connections w3 = delete "report-a" (_connections one_watched)
        ∧ _stopped w3 = true
        ∧ trace w3 = [EvLoopStop].
Proof.
  destruct (remove_client_steps one_watched 1 0 watched)
    as (w1 & w2 & w3 & _ & _ & _ & _ & _ & Hrun & Hlast); [reflexivity|].
  destruct Hlast as (Hc & Hstop); [reflexivity|reflexivity|].
  destruct Hstop as (Hs & Ht); [reflexivity|].
  exists w3. by repeat split.
Defined.

(** C6. [add_client] on a name that is not a key of the table raises
    [KeyError] for that name to its caller, and the world it leaves,
    table and objects included, is the one it started from. *)
Theorem add_client_missing_name (w : world) (report_name : string) (ws : wsid) :
  _connections w !! report_name = None →
  add_client report_name ws w = Raise (KeyError report_name) w.
Proof.
  intros H. unfold add_client, connections_getitem.
  rewrite !bind_eq. simpl. by rewrite H.
Qed.

Lemma add_client_missing_name_witness :
  add_client "report-b" 7 one_watched = Raise (KeyError "report-b") one_watched.
Proof. apply add_client_missing_name. reflexivity. Defined.

End Lifecycle.

Section Shutdown.

Import Proxy ProxyConnection.

Lemma loop_stops_app (l k : list event) :
loop_stops (l ++ k) = loop_stops l + loop_stops k.
Proof. unfold loop_stops. by rewrite filter_app, length_app. Qed.

Lemma loop_stops_other (l : list event) (e : event) :
e ≠ EvLoopStop → loop_stops (l ++ [e]) = loop_stops l.
Proof.
intros H. rewrite loop_stops_app. unfold loop_stops at 2.
rewrite filter_cons_False, filter_nil by done. simpl. lia.
Qed.

Lemma loop_stops_stop (l : list event) :
loop_stops (l ++ [EvLoopStop]) = S (loop_stops l).
Proof.
rewrite loop_stops_app. unfold loop_stops at 2.
rewrite filter_cons_True, filter_nil by done. simpl. lia.
Qed.

Lemma stops_agree_emit (e : event) (w : world) :
e ≠ EvLoopStop → stops_agree w → stops_agree (emit e w).
Proof. unfold stops_agree. simpl. intros H. by rewrite loop_stops_other. Qed.

Lemma keeps_stop : triple stops_agree stop stops_agree.
Proof.
intros w H. rewrite stop_eval. unfold stops_agree in *. simpl.
destruct (_stopped w); simpl; [done|]. by rewrite loop_stops_stop, H.
Qed.

Lemma keeps_mutate (c : oid) f : triple stops_agree (mutate c f) stops_agree.
Proof. unfold mutate. keeps. by apply triple_modify. Qed.

Lemma keeps_try_to_deregister (c : oid) :
triple stops_agree (try_to_deregister_proxy_connection c) stops_agree.
Proof.
unfold try_to_deregister_proxy_connection, proxy_connection_is_registered,
  connections_delitem.
keeps. by apply triple_modify.
Qed.

Lemma keeps_potentially_stop : triple stops_agree potentially_stop stops_agree.
Proof. unfold potentially_stop. keeps. apply keeps_stop. Qed.

Lemma keeps_register (c : oid) :
triple stops_agree (register_proxy_connection c) stops_agree.
Proof.
unfold register_proxy_connection, _launch_web_client. keeps.
- by apply triple_modify.
- apply triple_modify. intros w. by apply stops_agree_emit.
- apply triple_modify. intros w. by apply stops_agree_emit.
Qed.

Lemma keeps_add_client (n : string) (ws : wsid) :
triple stops_agree (add_client n ws) stops_agree.
Proof.
unfold add_client, connections_getitem, Proxy.add_client_queue. keeps.
- by apply triple_modify.
- apply keeps_mutate.
- apply triple_modify. intros w. by apply stops_agree_emit.
Qed.

Lemma keeps_handler {A} (b : bool) (callback : M A) :
triple stops_agree callback stops_agree →
triple stops_agree (stop_proxy_on_exception b callback) stops_agree.
Proof.
intros Hc w H. specialize (Hc w H).
unfold stop_proxy_on_exception.
destruct b; (destruct (callback w) as [a w'|e w'|]; [done| |done]);
  rewrite bind_eq; pose proof (keeps_stop w' Hc) as Hs;
  by destruct (stop w').
Qed.

Lemma keeps_exec (a : action) : triple stops_agree (exec a) stops_agree.
Proof.
induction a; simpl.
- by apply triple_modify.
- apply keeps_mutate.
- apply keeps_register.
- apply keeps_try_to_deregister.
- apply keeps_potentially_stop.
- apply keeps_stop.
- keeps. apply keeps_add_client.
- unfold remove_client. keeps;
    [apply keeps_mutate|apply keeps_try_to_deregister|apply keeps_potentially_stop].
- unfold connection_timeout. keeps;
    [apply keeps_mutate|apply keeps_try_to_deregister|apply keeps_potentially_stop].
- apply triple_raise.
- by keeps.
- by apply keeps_handler.
Qed.

Lemma stops_agree_after (a : action) (w : world) :
stops_agree w → stops_agree (after (exec a) w).
Proof.
intros H. pose proof (keeps_exec a w H) as Ha. unfold after.
by destruct (exec a w).
Qed.

Lemma stops_agree_run (script : list action) (w : world) :
stops_agree w → stops_agree (run script w).
Proof.
revert w. induction script as [|a script IH]; intros w H; [done|].
simpl. apply IH. by apply stops_agree_after.
Qed.

Lemma stop_calls_after_stop (calls : list action) (w : world) :
  Forall (fun a => a = Stop ∨ a = PotentiallyStop) calls →
  _stopped w = true →
  run calls w = w.
Proof.
  induction 1 as [|a calls Ha _ IH]; intros Hs; [done|].
  simpl. assert (after (exec a) w = w) as ->; [|by apply IH].
  unfold after. destruct Ha as [-> | ->]; simpl.
  - by rewrite stop_stopped.
  - destruct (decide (_connections w = ∅)) as [E|E].
    + rewrite potentially_stop_empty by done. by rewrite stop_stopped.
    + by rewrite potentially_stop_nonempty.
Qed.

(** C3. In every execution from a fresh proxy the event loop is stopped
    at most once, and it has been stopped exactly when [_stopped] is set.
    [potentially_stop] does nothing on a table that is not empty and is
    [stop] on the empty table; [stop] stops the loop and sets the flag
    when the flag is not set, and once it is set any number of calls of
    [stop] and [potentially_stop] leave the world as it is. *)
Theorem shutdown_signalled_once :
  (∀ script : list action,
     loop_stops (trace (run script init)) ≤ 1
     ∧ (loop_stops (trace (run script init)) = 1
        ↔ _stopped (run script init) = true))
  ∧ (∀ w : world, _connections w ≠ ∅ → potentially_stop w = Ok tt w)
  ∧ (∀ w : world, _connections w = ∅ → potentially_stop w = stop w)
  ∧ (∀ w : world, _stopped w = false →
       stop w = Ok tt (set_stopped true (emit EvLoopStop w)))
  ∧ (∀ w : world, _stopped w = true →
       stop w = Ok tt w ∧ potentially_stop w = Ok tt w)
  ∧ (∀ (w : world) (calls : list action),
       Forall (fun a => a = Stop ∨ a = PotentiallyStop) calls →
       _stopped w = true →
       run calls w = w).
Proof.
  split; [|split; [|split; [|split; [|split]]]].
  - intros script.
    assert (stops_agree (run script init)) as H
      by (by apply stops_agree_run).
    unfold stops_agree in H. rewrite H.
    destruct (_stopped (run script init)); split; try lia; by split.
  - apply potentially_stop_nonempty.
  - apply potentially_stop_empty.
  - intros w H. by rewrite stop_eval, H.
  - intros w H. split; [by apply stop_stopped|].
    destruct (decide (_connections w = ∅)) as [E|E].
    + rewrite potentially_stop_empty by done. by apply stop_stopped.
    + by apply potentially_stop_nonempty.
  - intros w calls. apply stop_calls_after_stop.
Qed.

End Shutdown.

Section HandlerErrors.

Import Proxy ProxyConnection.

(** C7, as stated, fails: an observer asks for a report that does not
  exist while another report is being served.  The wrapped handler
  raises [KeyError], and the wrapper stops the event loop although the
  table still holds the other report. *)
Lemma handler_error_stops_loop :
_connections serving !! "report-a" = Some 1
∧ _stopped serving = false
∧ loop_stops (trace serving) = 0
∧ stop_proxy_on_exception true (add_client "report-b" 7) serving
  = Raise (KeyError "report-b") (set_stopped true (emit EvLoopStop serving))
∧ _connections (set_stopped true (emit EvLoopStop serving)) !! "report-a" = Some 1
∧ loop_stops (trace (set_stopped true (emit EvLoopStop serving))) = 1.
Proof. repeat split. Qed.

Lemma quiet_mutate n (c : oid) f : triple (stops_are n) (mutate c f) (stops_are n).
Proof. unfold mutate. keeps. by apply triple_modify. Qed.

Lemma quiet_try_to_deregister n (c : oid) :
triple (stops_are n) (try_to_deregister_proxy_connection c) (stops_are n).
Proof.
unfold try_to_deregister_proxy_connection, proxy_connection_is_registered,
  connections_delitem.
keeps. by apply triple_modify.
Qed.

Lemma stops_are_emit n (e : event) (w : world) :
e ≠ EvLoopStop → stops_are n w → stops_are n (emit e w).
Proof. unfold stops_are. simpl. intros H. by rewrite loop_stops_other. Qed.

Lemma quiet_register n (c : oid) :
triple (stops_are n) (register_proxy_connection c) (stops_are n).
Proof.
unfold register_proxy_connection, _launch_web_client. keeps.
- by apply triple_modify.
- apply triple_modify. intros w. by apply stops_are_emit.
- apply triple_modify. intros w. by apply stops_are_emit.
Qed.

Lemma quiet_add_client n (r : string) (ws : wsid) :
triple (stops_are n) (add_client r ws) (stops_are n).
Proof.
unfold add_client, connections_getitem, Proxy.add_client_queue. keeps.
- by apply triple_modify.
- apply quiet_mutate.
- apply triple_modify. intros w. by apply stops_are_emit.
Qed.

Lemma potentially_stop_on_empty n :
triple (stops_are n) potentially_stop (stops_are_or_empty n).
Proof.
intros w H. destruct (potentially_stop_Ok w) as (w' & Hp & Hc & _).
destruct (decide (_connections w = ∅)) as [E|E].
- rewrite Hp. right. by rewrite Hc.
- rewrite (potentially_stop_nonempty _ E). by left.
Qed.

Lemma then_potentially_stop n (m : M unit) :
triple (stops_are n) m (stops_are n) →
triple (stops_are n) (m;; potentially_stop) (stops_are_or_empty n).
Proof.
intros Hm. apply (triple_bind _ _ (stops_are n)); [done|by left|].
intros _. apply potentially_stop_on_empty.
Qed.

Lemma registry_call_stops n (a : action) :
registry_call a = true →
triple (stops_are n) (exec a) (stops_are_or_empty n).
Proof.
assert (∀ w, stops_are n w → stops_are_or_empty n w) as Hweak by (by left).
destruct a; try discriminate; intros _; simpl.
- eapply triple_weaken; [apply quiet_register|done].
- eapply triple_weaken; [apply quiet_try_to_deregister|done].
- apply potentially_stop_on_empty.
- eapply triple_weaken; [|exact Hweak]. keeps. apply quiet_add_client.
- unfold remove_client. apply (triple_bind _ _ (stops_are n));
    [apply quiet_mutate|done|]. intros _.
  apply then_potentially_stop, quiet_try_to_deregister.
- unfold connection_timeout. apply (triple_bind _ _ (stops_are n));
    [apply quiet_mutate|done|]. intros _.
  apply then_potentially_stop, quiet_try_to_deregister.
Qed.

(** C7, amended.  The event loop is stopped through [stop] only, and
  [stop] has two callers.  The wrapper [stop_proxy_on_exception] hands
  on the result of a handler that returns, and when the handler raises
  it stops the proxy (the loop, unless it was stopped already) and
  raises the same exception again, whatever the table holds.  The
  registry calls stop the loop through [potentially_stop] only: after
  each of them either no stop was added or the table is empty. *)
Theorem stop_on_empty_table_or_handler_error :
(∀ (A : Type) (is_coroutine : bool) (callback : M A) (w : world),
   stop_proxy_on_exception is_coroutine callback w
   = match callback w with
     | Ok rv w' => Ok rv w'
     | Raise e w' =>
         Raise e (set_stopped true (if _stopped w' then w' else emit EvLoopStop w'))
     | Wrong => Wrong
     end)
∧ (∀ (a : action) (w : world),
     registry_call a = true →
     loop_stops (trace (after (exec a) w)) = loop_stops (trace w)
     ∨ _connections (after (exec a) w) = ∅).
Proof.
split.
- intros A b callback w. unfold stop_proxy_on_exception.
  destruct b; (destruct (callback w) as [rv w'|e w'|]; [done| |done]);
    by rewrite bind_eq, stop_eval.
- intros a w Ha.
  pose proof (registry_call_stops (loop_stops (trace w)) a Ha w eq_refl) as H.
  unfold after. destruct (exec a w) as [[] w'|e w'|]; [done|done|by left].
Qed.

End HandlerErrors.


(** ** The scenarios of the specification, run on the model *)

Section Scenarios.

Import Proxy ProxyConnection.

(** Grace protection: a session in its grace period is never removed,
    however often the registry is asked. *)
Lemma grace_period_protects (w : world) (c : oid) (pc : t) :
  store w !! c = Some pc →
  inGracePeriod pc = true →
  try_to_deregister_proxy_connection c w = Ok tt w.
Proof.
  intros H Hg. apply (try_to_deregister_ineligible _ _ pc H).
  unfold can_be_deregistered. rewrite Hg. apply andb_false_r.
Qed.

Lemma add_client_queue_Ok (w : world) (c : oid) (pc : t) :
  store w !! c = Some pc →
  Proxy.add_client_queue c w
  = Ok (next_queue w)
      (set_store
         (<[c := ProxyConnection.add_client_queue (next_queue w) pc]> (store w))
         (bump_queue w)).
Proof.
  intros H. unfold Proxy.add_client_queue.
  assert (get w = Ok w w) as Hg by done.
  rewrite (bind_Ok _ _ _ _ _ Hg).
  assert (modify bump_queue w = Ok tt (bump_queue w)) as Hb by done.
  rewrite (bind_Ok _ _ _ _ _ Hb).
  rewrite (bind_Ok _ _ _ _ _ (mutate_Ok c _ pc (bump_queue w) H)).
  reflexivity.
Qed.

(** An attach to a registered name returns the connection and a new
    queue, after the initial report message was sent. *)
Lemma add_client_registered (w : world) (n : string) (ws : wsid) (c : oid) (pc : t) :
  _connections w !! n = Some c →
  store w !! c = Some pc →
  add_client n ws w
  = Ok (c, next_queue w)
      (emit (EvNewReportMsg (id pc) ws)
         (set_store
            (<[c := ProxyConnection.add_client_queue (next_queue w) pc]> (store w))
            (bump_queue w))).
Proof.
  intros Hn H. unfold add_client.
  assert (connections_getitem n w = Ok c w) as Hg.
  { unfold connections_getitem. rewrite bind_eq. simpl. by rewrite Hn. }
  rewrite (bind_Ok _ _ _ _ _ Hg).
  rewrite (bind_Ok _ _ _ _ _ (add_client_queue_Ok _ _ _ H)).
  set (pc' := ProxyConnection.add_client_queue (next_queue w) pc).
  set (w' := set_store (<[c := pc']> (store w)) (bump_queue w)).
  assert (store w' !! c = Some pc') as H' by apply lookup_insert_eq.
  by rewrite (bind_Ok _ _ _ _ _ (deref_Ok _ _ _ H')).
Qed.

(** With an observer attached the session outlives its grace period and
    the end of its producer; the detach of the observer removes it and
    stops the proxy. *)
Example observed_session :
  _connections (run observed init) !! "report-a" = Some 1
  ∧ _stopped (run observed init) = false
  ∧ trace (run observed init)
    = [EvLaunchWebClient "report-a"; EvCallLater 1; EvNewReportMsg "s" 7]
  ∧ _connections (run (observed ++ [RemoveClient 1 0]) init) = ∅
  ∧ trace (run (observed ++ [RemoveClient 1 0]) init)
    = [EvLaunchWebClient "report-a"; EvCallLater 1; EvNewReportMsg "s" 7;
       EvLoopStop].
Proof. repeat split; reflexivity. Qed.

(** Without an observer the session is kept until the timer fires, and
    removed by the fire. *)
Example unobserved_session :
  _connections (run unobserved init) !! "report-b" = Some 1
  ∧ _stopped (run unobserved init) = false
  ∧ _connections (run (unobserved ++ [ConnectionTimeout 1]) init) = ∅
  ∧ trace (run (unobserved ++ [ConnectionTimeout 1]) init)
    = [EvLaunchWebClient "report-b"; EvCallLater 1; EvLoopStop].
Proof. repeat split; reflexivity. Qed.

(** A timer armed for a replaced session fires without effect on the
    session that replaced it; the browser was launched once. *)
Example stale_timer :
  _connections (run (rerun ++ [ConnectionTimeout 1]) init) !! "report-a" = Some 2
  ∧ _stopped (run (rerun ++ [ConnectionTimeout 1]) init) = false
  ∧ launches (trace (run (rerun ++ [ConnectionTimeout 1]) init)) = ["report-a"].
Proof. repeat split; reflexivity. Qed.

End Scenarios.

(** ** Further properties of the registry calls *)

Section Coverage.

Import Proxy ProxyConnection.

Lemma launches_snoc (l : list event) (e : event) :
  launches (l ++ [e])
  = launches l ++ match e with EvLaunchWebClient n => [n] | _ => [] end.
Proof. unfold launches. rewrite omap_app. by destruct e. Qed.

Lemma timers_snoc (l : list event) (e : event) :
  timers (l ++ [e])
  = timers l ++ match e with EvCallLater c => [c] | _ => [] end.
Proof. unfold timers. rewrite omap_app. by destruct e. Qed.

(** X1. A registered connection is found again: right after
    [register_proxy_connection c] the connection is registered, the
    table is not empty so [potentially_stop] does nothing, and
    [add_client] under the name of [c] attaches to [c] itself, leaving
    the table as it is. *)
Theorem register_then_found (w : world) (c : oid) (pc : t) (ws : wsid) :
  store w !! c = Some pc →
  ∃ w1 w2,
    register_proxy_connection c w = Ok tt w1
    ∧ proxy_connection_is_registered c w1 = Ok true w1
    ∧ potentially_stop w1 = Ok tt w1
    ∧ add_client (name pc) ws w1 = Ok (c, next_queue w1) w2
    ∧ _connections w2 = _connections w1.
Proof.
  intros H. destruct (register_Ok w c pc H) as (w1 & Hr & Hc & Hs & _).
  assert (store w1 !! c = Some pc) as H1 by (by rewrite Hs).
  assert (_connections w1 !! name pc = Some c) as Hl
    by (rewrite Hc; apply lookup_insert_eq).
  eexists w1, _. split; [done|]. split; [by apply (is_registered_true _ _ pc)|].
  split.
  { apply potentially_stop_nonempty. rewrite Hc. apply insert_non_empty. }
  split; [by apply add_client_registered|done].
Qed.

Lemma register_then_found_witness :
  ∃ w1 w2,
    register_proxy_connection 1 twins = Ok tt w1
    ∧ proxy_connection_is_registered 1 w1 = Ok true w1
    ∧ potentially_stop w1 = Ok tt w1
    ∧ add_client "report-a" 7 w1 = Ok (1, next_queue w1) w2
    ∧ _connections w2 = _connections w1.
Proof.
  apply (register_then_found twins 1 (new "report-a" "s") 7). reflexivity.
Defined.

(** X2. Every registration, a replacing one as well, schedules one timer
    for the connection it registers, and never stops the event loop. *)
Theorem register_arms_one_timer (w : world) (c : oid) (pc : t) :
  store w !! c = Some pc →
  ∃ w', register_proxy_connection c w = Ok tt w'
    ∧ timers (trace w') = timers (trace w) ++ [c]
    ∧ loop_stops (trace w') = loop_stops (trace w)
    ∧ _stopped w' = _stopped w.
Proof.
  intros H. eexists. split; [apply (register_eval _ _ _ H)|].
  destruct (bool_decide (_connections w !! name pc = None)); simpl;
    rewrite !timers_snoc, ?loop_stops_other by done; simpl;
    by rewrite ?app_nil_r.
Qed.

Lemma register_arms_one_timer_witness :
  ∃ w', register_proxy_connection 1 twins = Ok tt w'
    ∧ timers (trace w') = timers (trace twins) ++ [1]
    ∧ loop_stops (trace w') = loop_stops (trace twins)
    ∧ _stopped w' = _stopped twins.
Proof.
  apply (register_arms_one_timer twins 1 (new "report-a" "s")). reflexivity.
Defined.

(** X3. Once a session was removed its name is new again: a
    registration under that name right after the removal launches the
    browser once more, and the table holds the new connection. *)
Theorem relaunch_after_removal (w : world) (c c' : oid) (pc pc' : t) :
  store w !! c = Some pc →
  _connections w !! name pc = Some c →
  can_be_deregistered pc = true →
  store w !! c' = Some pc' →
  name pc' = name pc →
  ∃ w', (try_to_deregister_proxy_connection c;; register_proxy_connection c') w
        = Ok tt w'
    ∧ launches (trace w') = launches (trace w) ++ [name pc]
    ∧ _connections w' = <[name pc := c']> (_connections w).
Proof.
  intros H Hc He H' Hn.
  rewrite (bind_Ok _ _ _ _ _ (try_to_deregister_removes _ _ _ H Hc He)).
  set (w1 := set_connections (delete (name pc) (_connections w)) w).
  assert (store w1 !! c' = Some pc') as H1 by done.
  eexists. split; [apply (register_eval _ _ _ H1)|].
  rewrite Hn. simpl. rewrite lookup_delete_eq, bool_decide_eq_true_2 by done.
  simpl. rewrite !launches_snoc. simpl. rewrite app_nil_r.
  split; [done|]. apply insert_delete_eq.
Qed.

Lemma relaunch_after_removal_witness :
  ∃ w', (try_to_deregister_proxy_connection 1;; register_proxy_connection 1) one_idle
        = Ok tt w'
    ∧ launches (trace w') = launches (trace one_idle) ++ ["report-a"]
    ∧ _connections w' = <["report-a" := 1]> (_connections one_idle).
Proof.
  apply (relaunch_after_removal one_idle 1 1 idle idle); reflexivity.
Defined.

(** X4. Asking twice is asking once: a second
    [try_to_deregister_proxy_connection c] right after the first one
    changes nothing and does not fail, whether the first one removed the
    entry or not. *)
Theorem try_to_deregister_twice (w : world) (c : oid) (pc : t) :
  store w !! c = Some pc →
  (try_to_deregister_proxy_connection c;; try_to_deregister_proxy_connection c) w
  = try_to_deregister_proxy_connection c w.
Proof.
  intros H.
  destruct (decide (_connections w !! name pc = Some c)) as [Hc|Hc].
  - destruct (can_be_deregistered pc) eqn:He.
    + rewrite (try_to_deregister_removes _ _ _ H Hc He).
      erewrite bind_Ok; [|by apply try_to_deregister_removes].
      apply (try_to_deregister_unregistered _ _ pc); [done|].
      simpl. by rewrite lookup_delete_eq.
    + rewrite (try_to_deregister_ineligible _ _ _ H He).
      erewrite bind_Ok; [|by apply (try_to_deregister_ineligible _ _ pc)].
      by apply (try_to_deregister_ineligible _ _ pc).
  - rewrite (try_to_deregister_unregistered _ _ _ H Hc).
    erewrite bind_Ok; [|by apply (try_to_deregister_unregistered _ _ pc)].
    by apply (try_to_deregister_unregistered _ _ pc).
Qed.

Lemma try_to_deregister_twice_witness :
  (try_to_deregister_proxy_connection 1;; try_to_deregister_proxy_connection 1) one_idle
  = try_to_deregister_proxy_connection 1 one_idle.
Proof. apply (try_to_deregister_twice one_idle 1 idle). reflexivity. Defined.


Lemma connections_getitem_found (w : world) (k : string) (c : oid) :
  _connections w !! k = Some c → connections_getitem k w = Ok c w.
Proof. intros H. unfold connections_getitem. rewrite bind_eq. simpl. by rewrite H. Qed.

Lemma connections_getitem_missing (w : world) (k : string) :
  _connections w !! k = None → connections_getitem k w = Raise (KeyError k) w.
Proof. intros H. unfold connections_getitem. rewrite bind_eq. simpl. by rewrite H. Qed.

Lemma add_client_queue_dangling (w : world) (c : oid) :
  store w !! c = None → Proxy.add_client_queue c w = Wrong.
Proof.
  intros H. unfold Proxy.add_client_queue.
  assert (get w = Ok w w) as Hg by done.
  rewrite (bind_Ok _ _ _ _ _ Hg).
  assert (modify bump_queue w = Ok tt (bump_queue w)) as Hb by done.
  rewrite (bind_Ok _ _ _ _ _ Hb).
  assert (mutate c (ProxyConnection.add_client_queue (next_queue w)) (bump_queue w)
          = Wrong) as Hm.
  { unfold mutate. rewrite bind_eq. unfold deref. simpl. by rewrite H. }
  by rewrite bind_eq, Hm.
Qed.

(** X6. [add_client] touches nothing of the proxy but one connection:
    whether it returns or raises, the table and the stop flag are as
    before, no loop stop, browser launch or timer is added, and every
    object other than the one stored under the requested name is as it
    was. *)
Theorem add_client_frame (report_name : string) (ws : wsid) (w : world) :
  _connections (after (add_client report_name ws) w) = _connections w
  ∧ _stopped (after (add_client report_name ws) w) = _stopped w
  ∧ loop_stops (trace (after (add_client report_name ws) w)) = loop_stops (trace w)
  ∧ launches (trace (after (add_client report_name ws) w)) = launches (trace w)
  ∧ timers (trace (after (add_client report_name ws) w)) = timers (trace w)
  ∧ (∀ c, _connections w !! report_name ≠ Some c →
          store (after (add_client report_name ws) w) !! c = store w !! c).
Proof.
  unfold after.
  destruct (_connections w !! report_name) as [c|] eqn:Hn.
  - destruct (store w !! c) as [pc|] eqn:Hs.
    + rewrite (add_client_registered _ _ _ _ _ Hn Hs). simpl.
      rewrite loop_stops_other, launches_snoc, timers_snoc by done.
      simpl. rewrite !app_nil_r. repeat split; try done.
      intros c' Hc'. apply lookup_insert_ne. congruence.
    + assert (add_client report_name ws w = Wrong) as ->; [|done].
      unfold add_client.
      rewrite (bind_Ok _ _ _ _ _ (connections_getitem_found _ _ _ Hn)).
      by rewrite bind_eq, (add_client_queue_dangling _ _ Hs).
  - assert (add_client report_name ws w = Raise (KeyError report_name) w) as ->;
      [|done].
    unfold add_client.
    by rewrite (bind_Raise _ _ _ _ _ (connections_getitem_missing _ _ Hn)).
Qed.

(** X7. A late detach is harmless: [remove_client] for a connection that
    is not the object stored under its name any more (it was replaced or
    removed) returns, leaves the table as it is, and touches no object
    but that connection. *)
Theorem remove_client_stale (w : world) (c : oid) (q : qid) (pc : t) :
  store w !! c = Some pc →
  _connections w !! name pc ≠ Some c →
  ∃ w', remove_client c q w = Ok tt w'
    ∧ _connections w' = _connections w
    ∧ (∀ c', c' ≠ c → store w' !! c' = store w !! c').
Proof.
  intros H Hstale.
  pose proof (mutate_Ok c (remove_client_queue q) pc w H) as Hm.
  set (w1 := set_store (<[c := remove_client_queue q pc]> (store w)) w) in *.
  assert (store w1 !! c = Some (remove_client_queue q pc)) as H1
    by apply (mutate_lookup _ _ _ _ H).
  assert (try_to_deregister_proxy_connection c w1 = Ok tt w1) as Ht
    by (by apply (try_to_deregister_unregistered _ _ _ H1)).
  destruct (potentially_stop_Ok w1) as (w3 & Hp & Hc3 & Hs3).
  exists w3. split; [|split; [done|]].
  - unfold remove_client.
    rewrite (bind_Ok _ _ _ _ _ Hm). by rewrite (bind_Ok _ _ _ _ _ Ht).
  - intros c' Hne. rewrite Hs3. simpl. by apply lookup_insert_ne.
Qed.

Lemma remove_client_stale_witness :
  ∃ w', remove_client 1 0 twins = Ok tt w'
    ∧ _connections w' = _connections twins
    ∧ (∀ c', c' ≠ 1 → store w' !! c' = store twins !! c').
Proof.
  apply (remove_client_stale twins 1 0 (new "report-a" "s")).
  - reflexivity.
  - discriminate.
Defined.

Lemma set_store_id (w : world) : set_store (store w) w = w.
Proof. by destruct w. Qed.

(** X8. A timer that fires again does nothing: every registration
    schedules a timer, so several can fire for one connection, and a
    second [connection_timeout c] right after the first leaves the world
    as the first one left it. *)
Theorem connection_timeout_twice (w : world) (c : oid) (pc : t) :
  store w !! c = Some pc →
  (connection_timeout c;; connection_timeout c) w = connection_timeout c w.
Proof.
  intros H.
  destruct (mutate_then_reap w c end_grace_period pc H eq_refl)
    as (w1 & w2 & w3 & Hm & H1 & Hc1 & Ht & Hp & Hrun & _).
  change (connection_timeout c w = Ok tt w3) in Hrun.
  rewrite (bind_Ok _ _ _ _ _ Hrun), Hrun.
  destruct (try_to_deregister_Ok w1 c _ H1) as (w2' & Ht' & Hs2 & _).
  rewrite Ht in Ht'. injection Ht' as <-.
  destruct (potentially_stop_Ok w2) as (w3' & Hp' & Hc3 & Hs3).
  rewrite Hp in Hp'. injection Hp' as <-.
  assert (store w3 !! c = Some (end_grace_period pc)) as H3
    by (by rewrite Hs3, Hs2).
  assert (mutate c end_grace_period w3 = Ok tt w3) as Hm3.
  { rewrite (mutate_Ok _ _ _ _ H3).
    change (end_grace_period (end_grace_period pc)) with (end_grace_period pc).
    by rewrite (insert_id _ _ _ H3), set_store_id. }
  assert (try_to_deregister_proxy_connection c w3 = Ok tt w3) as Ht3.
  { destruct (decide (_connections w1 !! name pc = Some c)) as [Hcur|Hcur].
    - destruct (can_be_deregistered (end_grace_period pc)) eqn:He.
      + apply (try_to_deregister_unregistered _ _ _ H3). simpl. rewrite Hc3.
        rewrite (try_to_deregister_removes _ _ _ H1 Hcur He) in Ht.
        injection Ht as <-. simpl. by rewrite lookup_delete_eq.
      + by apply (try_to_deregister_ineligible _ _ _ H3).
    - apply (try_to_deregister_unregistered _ _ _ H3). simpl. rewrite Hc3.
      rewrite (try_to_deregister_unregistered _ _ _ H1 Hcur) in Ht.
      by injection Ht as <-. }
  assert (potentially_stop w3 = Ok tt w3) as Hp3.
  { destruct (decide (_connections w2 = ∅)) as [E|E].
    - rewrite potentially_stop_empty by (by rewrite Hc3).
      apply stop_stopped.
      rewrite potentially_stop_empty, stop_eval in Hp by done.
      by injection Hp as <-.
    - apply potentially_stop_nonempty. by rewrite Hc3. }
  unfold connection_timeout.
  rewrite (bind_Ok _ _ _ _ _ Hm3). by rewrite (bind_Ok _ _ _ _ _ Ht3).
Qed.

Lemma connection_timeout_twice_witness :
  (connection_timeout 1;; connection_timeout 1) serving = connection_timeout 1 serving.
Proof.
  apply (connection_timeout_twice serving 1 (new "report-a" "s")). reflexivity.
Defined.

End Coverage.

(** ** Properties kept by every call *)

Section Preserved.

Import Proxy ProxyConnection.

(** A property of worlds that survives the elementary updates the proxy
    makes survives its calls. *)
Variable P : world → Prop.
Hypothesis P_delete :
  ∀ w k, P w → P (set_connections (delete k (_connections w)) w).
Hypothesis P_emit : ∀ w e, P w → P (emit e w).
Hypothesis P_bump : ∀ w, P w → P (bump_queue w).
Hypothesis P_stopped : ∀ w, P w → P (set_stopped true w).
Hypothesis P_mutate :
  ∀ w c pc f, store w !! c = Some pc → name (f pc) = name pc →
              P w → P (set_store (<[c := f pc]> (store w)) w).
Hypothesis P_register : ∀ c, triple P (register_proxy_connection c) P.

Lemma preserved_mutate (c : oid) (f : t → t) :
  (∀ pc, name (f pc) = name pc) → triple P (mutate c f) P.
Proof.
  intros Hf w H. destruct (store w !! c) as [pc|] eqn:E.
  - rewrite (mutate_Ok _ _ _ _ E). by apply P_mutate.
  - unfold mutate. rewrite bind_eq. unfold deref. by rewrite E.
Qed.

Lemma preserved_stop : triple P stop P.
Proof.
  intros w H. rewrite stop_eval. apply P_stopped.
  destruct (_stopped w); [done|by apply P_emit].
Qed.

Lemma preserved_try_to_deregister (c : oid) :
  triple P (try_to_deregister_proxy_connection c) P.
Proof.
  unfold try_to_deregister_proxy_connection, proxy_connection_is_registered,
    connections_delitem.
  keeps. apply triple_modify. intros w. apply P_delete.
Qed.

Lemma preserved_potentially_stop : triple P potentially_stop P.
Proof. unfold potentially_stop. keeps. apply preserved_stop. Qed.

Lemma preserved_add_client (n : string) (ws : wsid) :
  triple P (add_client n ws) P.
Proof.
  unfold add_client, connections_getitem, Proxy.add_client_queue. keeps.
  - apply triple_modify. intros w. apply P_bump.
  - by apply preserved_mutate.
  - apply triple_modify. intros w. apply P_emit.
Qed.

Lemma preserved_handler {A} (b : bool) (callback : M A) :
  triple P callback P → triple P (stop_proxy_on_exception b callback) P.
Proof.
  intros Hc w H. specialize (Hc w H).
  unfold stop_proxy_on_exception.
  destruct b; (destruct (callback w) as [a w'|e w'|]; [done| |done]);
    rewrite bind_eq; pose proof (preserved_stop w' Hc) as Hs;
    by destruct (stop w').
Qed.

(** Every action that creates no object keeps [P]. *)
Lemma preserved_exec (a : action) : allocs a = [] → triple P (exec a) P.
Proof.
  induction a; simpl; intros Ha; try discriminate.
  - by apply preserved_mutate.
  - apply P_register.
  - apply preserved_try_to_deregister.
  - apply preserved_potentially_stop.
  - apply preserved_stop.
  - keeps. apply preserved_add_client.
  - unfold remove_client. keeps;
      [by apply preserved_mutate|apply preserved_try_to_deregister
      |apply preserved_potentially_stop].
  - unfold connection_timeout. keeps;
      [by apply preserved_mutate|apply preserved_try_to_deregister
      |apply preserved_potentially_stop].
  - apply triple_raise.
  - apply app_eq_nil in Ha as [Ha1 Ha2]. keeps; auto.
  - apply preserved_handler. auto.
Qed.

(** So does every action, when creating an object keeps [P] as well. *)
Lemma preserved_exec_all (a : action) :
  (∀ c pc w, P w → P (alloc c pc w)) → triple P (exec a) P.
Proof.
  intros P_alloc.
  induction a;
    try (apply preserved_exec; reflexivity); simpl.
  - apply triple_modify. intros w. apply P_alloc.
  - by keeps.
  - by apply preserved_handler.
Qed.

Lemma preserved_run (script : list action) (w : world) :
  (∀ c pc w, P w → P (alloc c pc w)) → P w → P (run script w).
Proof.
  intros P_alloc. revert w.
  induction script as [|a script IH]; intros w H; [done|].
  simpl. apply IH. pose proof (preserved_exec_all a P_alloc w H) as Ha.
  unfold after. by destruct (exec a w).
Qed.

End Preserved.

(** ** Invariants of the executions *)

Section Invariants.

Import Proxy ProxyConnection.

Lemma stopped_register (c : oid) :
  triple (fun w => _stopped w = true) (register_proxy_connection c)
         (fun w => _stopped w = true).
Proof.
  unfold register_proxy_connection, _launch_web_client.
  keeps; by apply triple_modify.
Qed.

(** X9. A stopped proxy stays stopped: no call of the proxy, wrapped or
    not, failing or not, clears [_stopped] once it is set. *)
Theorem stopped_stays (script : list action) (w : world) :
  _stopped w = true → _stopped (run script w) = true.
Proof.
  apply (preserved_run (fun w => _stopped w = true)); try done.
  apply stopped_register.
Qed.

Lemma stopped_stays_witness :
  _stopped (run (observed ++ [RemoveClient 1 0])
              (run [Handler true (AddClient "report-b" 7)] serving)) = true.
Proof. apply stopped_stays. reflexivity. Defined.

Lemma elem_of_launches_snoc (l : list event) (e : event) (n : string) :
  n ∈ launches l → n ∈ launches (l ++ [e]).
Proof. rewrite launches_snoc. set_solver. Qed.

Lemma elem_of_timers_snoc (l : list event) (e : event) (c : oid) :
  c ∈ timers l → c ∈ timers (l ++ [e]).
Proof. rewrite timers_snoc. set_solver. Qed.

Lemma announced_emit (w : world) (e : event) : announced w → announced (emit e w).
Proof.
  intros H n c Hn. destruct (H n c Hn) as [Hl Ht]. simpl.
  split; [by apply elem_of_launches_snoc|by apply elem_of_timers_snoc].
Qed.

Lemma announced_register (c : oid) :
  triple announced (register_proxy_connection c) announced.
Proof.
  intros w H. destruct (store w !! c) as [pc|] eqn:E.
  - rewrite (register_eval _ _ _ E). intros n c' Hn.
    assert (<[name pc := c]> (_connections w) !! n = Some c') as Hn'
      by (by destruct (bool_decide (_connections w !! name pc = None))).
    clear Hn. apply lookup_insert_Some in Hn' as [[<- <-]|[Hne Hold]].
    + destruct (_connections w !! name pc) as [c0|] eqn:Hold.
      * rewrite bool_decide_eq_false_2 by done. simpl.
        destruct (H _ c0 Hold) as [Hl _].
        rewrite launches_snoc, timers_snoc. set_solver.
      * rewrite bool_decide_eq_true_2 by done. simpl.
        rewrite !launches_snoc, !timers_snoc. set_solver.
    + destruct (H n c' Hold) as [Hl Ht].
      destruct (bool_decide (_connections w !! name pc = None)); simpl;
        rewrite !launches_snoc, !timers_snoc; set_solver.
  - unfold register_proxy_connection. rewrite bind_eq. unfold deref.
    by rewrite E.
Qed.

Lemma announced_run (script : list action) : announced (run script init).
Proof.
  apply (preserved_run announced); try done.
  - intros w k H n c Hn. simpl in Hn.
    apply lookup_delete_Some in Hn as [_ Hn]. by apply H.
  - apply announced_emit.
  - apply announced_register.
Qed.

(** X10. Nothing is in the table unannounced: in every execution from a
    fresh proxy, for each entry of the table a browser was launched for
    its name and a timer was scheduled for its connection. *)
Theorem registered_were_announced (script : list action) (n : string) (c : oid) :
  _connections (run script init) !! n = Some c →
  n ∈ launches (trace (run script init)) ∧ c ∈ timers (trace (run script init)).
Proof. apply announced_run. Qed.

Lemma registered_were_announced_witness :
  "report-a" ∈ launches (trace (run rerun init))
  ∧ 2 ∈ timers (trace (run rerun init)).
Proof. apply (registered_were_announced rerun "report-a" 2). reflexivity. Defined.

(** Keys are names, and the addresses [F] are still free. *)
Lemma named_delete (F : list oid) (w : world) (k : string) :
  keys_are_names w ∧ unused F w →
  keys_are_names (set_connections (delete k (_connections w)) w)
  ∧ unused F (set_connections (delete k (_connections w)) w).
Proof.
  intros [HK HF]. split; [|done]. intros n c Hn. simpl in Hn.
  apply lookup_delete_Some in Hn as [_ Hn]. by apply HK.
Qed.

Lemma named_mutate (F : list oid) (w : world) (c : oid) (pc : t) (f : t → t) :
  store w !! c = Some pc → name (f pc) = name pc →
  keys_are_names w ∧ unused F w →
  keys_are_names (set_store (<[c := f pc]> (store w)) w)
  ∧ unused F (set_store (<[c := f pc]> (store w)) w).
Proof.
  intros Hc Hf [HK HF]. split.
  - intros n c' Hn. destruct (HK n c' Hn) as (pc' & Hs & Hname). simpl.
    destruct (decide (c' = c)) as [->|Hne].
    + exists (f pc). rewrite lookup_insert_eq. split; [done|]. congruence.
    + exists pc'. by rewrite lookup_insert_ne.
  - intros x Hx. simpl. rewrite lookup_insert_ne; [by apply HF|].
    intros ->. specialize (HF _ Hx). congruence.
Qed.

Lemma named_register (F : list oid) (c : oid) :
  triple (fun w => keys_are_names w ∧ unused F w) (register_proxy_connection c)
         (fun w => keys_are_names w ∧ unused F w).
Proof.
  intros w [HK HF]. destruct (store w !! c) as [pc|] eqn:E.
  - destruct (register_Ok w c pc E) as (w' & -> & Hc & Hs & _). split.
    + intros n c' Hn. rewrite Hs. rewrite Hc in Hn.
      apply lookup_insert_Some in Hn as [[<- <-]|[_ Hn]]; [by exists pc|].
      by apply HK.
    + intros x Hx. rewrite Hs. by apply HF.
  - unfold register_proxy_connection. rewrite bind_eq. unfold deref.
    by rewrite E.
Qed.

Lemma named_quiet (F : list oid) (a : action) :
  allocs a = [] →
  triple (fun w => keys_are_names w ∧ unused F w) (exec a)
         (fun w => keys_are_names w ∧ unused F w).
Proof.
  apply (preserved_exec (fun w => keys_are_names w ∧ unused F w)); try done.
  - apply named_delete.
  - intros w c pc f. apply named_mutate.
  - apply named_register.
Qed.

Lemma unused_app_r (F G : list oid) (w : world) : unused (G ++ F) w → unused F w.
Proof. intros H c Hc. apply H. set_solver. Qed.

Lemma named_exec (a : action) (F : list oid) :
  NoDup (allocs a ++ F) →
  triple (fun w => keys_are_names w ∧ unused (allocs a ++ F) w) (exec a)
         (fun w => keys_are_names w ∧ unused F w).
Proof.
  revert F.
  induction a; intros F Hnd;
    try (apply named_quiet; reflexivity); simpl in *.
  - apply triple_modify. intros w [HK HF].
    apply NoDup_cons in Hnd as [Hc _].
    assert (store w !! c = None) as Hfree by (apply HF; set_solver).
    split.
    + intros n' c' Hn. destruct (HK n' c' Hn) as (pc' & Hs & Hname).
      exists pc'. simpl. rewrite lookup_insert_ne; [done|]. congruence.
    + intros x Hx. simpl. rewrite lookup_insert_ne; [|set_solver].
      apply HF. set_solver.
  - rewrite <- app_assoc in *.
    apply (triple_bind _ _ (fun w => keys_are_names w ∧ unused (allocs a2 ++ F) w)).
    + by apply IHa1.
    + intros w [HK HF]. split; [done|]. by apply (unused_app_r _ (allocs a2)).
    + intros _. apply IHa2. by apply NoDup_app in Hnd as (_ & _ & ?).
  - intros w H. specialize (IHa F Hnd w H). unfold stop_proxy_on_exception.
    destruct is_coroutine;
      (destruct (exec a w) as [[] w'|e w'|]; [done| |done]);
      rewrite bind_eq, stop_eval; simpl; destruct IHa as [HK HF];
      by destruct (_stopped w').
Qed.

Lemma named_run (script : list action) (F : list oid) (w : world) :
  NoDup (concat (map allocs script) ++ F) →
  keys_are_names w ∧ unused (concat (map allocs script) ++ F) w →
  keys_are_names (run script w) ∧ unused F (run script w).
Proof.
  revert w. induction script as [|a script IH]; intros w Hnd H; [done|].
  simpl in *. rewrite <- app_assoc in *. apply IH.
  - by apply NoDup_app in Hnd as (_ & _ & ?).
  - pose proof (named_exec a _ Hnd w H) as Ha. unfold after.
    destruct (exec a w); try done.
    destruct H as [HK HF]. split; [done|].
    by apply (unused_app_r _ (allocs a)).
Qed.

(** X11. The table is keyed by name: in every execution from a fresh
    proxy in which each connection object is created at an address of
    its own, every entry of the table points to an existing connection
    whose name is the key it is stored under. *)
Theorem keys_stay_names (script : list action) (n : string) (c : oid) :
  NoDup (concat (map allocs script)) →
  _connections (run script init) !! n = Some c →
  ∃ pc, store (run script init) !! c = Some pc ∧ name pc = n.
Proof.
  intros Hnd.
  destruct (named_run script [] init) as [HK _]; [by rewrite app_nil_r| |by apply HK].
  split; [by intros ? ? ?|by intros ? ?].
Qed.

Lemma keys_stay_names_witness :
  ∃ pc, store (run rerun init) !! 2 = Some pc ∧ name pc = "report-a".
Proof.
  apply (keys_stay_names rerun "report-a" 2).
  - apply (bool_decide_unpack _). reflexivity.
  - reflexivity.
Defined.

Lemma try_to_deregister_no_raise (c : oid) (w : world) :
  raised (try_to_deregister_proxy_connection c w) = false.
Proof.
  destruct (store w !! c) as [pc|] eqn:E.
  - by destruct (try_to_deregister_Ok w c pc E) as (w' & -> & _).
  - unfold try_to_deregister_proxy_connection, proxy_connection_is_registered.
    rewrite !bind_eq. unfold deref. by rewrite E.
Qed.

Lemma register_no_raise (c : oid) (w : world) :
  raised (register_proxy_connection c w) = false.
Proof.
  destruct (store w !! c) as [pc|] eqn:E.
  - by rewrite (register_eval _ _ _ E).
  - unfold register_proxy_connection. rewrite bind_eq. unfold deref.
    by rewrite E.
Qed.

Lemma connection_timeout_no_raise (c : oid) (w : world) :
  raised (connection_timeout c w) = false.
Proof.
  destruct (store w !! c) as [pc|] eqn:E.
  - destruct (mutate_then_reap w c end_grace_period pc E eq_refl)
      as (w1 & w2 & w3 & _ & _ & _ & _ & _ & Hrun & _).
    change (connection_timeout c w = Ok tt w3) in Hrun. by rewrite Hrun.
  - unfold connection_timeout, mutate. rewrite !bind_eq. unfold deref.
    by rewrite E.
Qed.

Lemma handler_no_raise {A} (b : bool) (callback : M A) (w : world) :
  raised (callback w) = false →
  stop_proxy_on_exception b callback w = callback w.
Proof.
  intros H. unfold stop_proxy_on_exception.
  by destruct b; destruct (callback w).
Qed.

(** X12. The registry calls other than [add_client] and [remove_client]
    never raise: the [del] of [try_to_deregister_proxy_connection] is
    reached for a registered connection only, so it finds its key.  A
    handler made of these calls therefore runs under
    [stop_proxy_on_exception] exactly as without it: the wrapper never
    stops the proxy for them. *)
Theorem registry_calls_never_raise (a : action) (w : world) :
  registry_only a = true →
  raised (exec a w) = false
  ∧ ∀ is_coroutine, exec (Handler is_coroutine a) w = exec a w.
Proof.
  intros Ha.
  assert (∀ w0, raised (exec a w0) = false) as Hno.
  { clear w. induction a; try discriminate; simpl in *; intros w0.
    - apply register_no_raise.
    - apply try_to_deregister_no_raise.
    - by destruct (potentially_stop_Ok w0) as (w' & -> & _).
    - by rewrite stop_eval.
    - apply connection_timeout_no_raise.
    - apply andb_true_iff in Ha as [Ha1 Ha2]. rewrite bind_eq.
      specialize (IHa1 Ha1 w0). destruct (exec a1 w0); try done.
      by apply IHa2.
    - by rewrite handler_no_raise; apply IHa. }
  split; [done|]. intros b. simpl. by apply handler_no_raise.
Qed.

Lemma registry_calls_never_raise_witness :
  raised (exec (Seq (Register 1) (ConnectionTimeout 1)) twins) = false
  ∧ ∀ is_coroutine,
      exec (Handler is_coroutine (Seq (Register 1) (ConnectionTimeout 1))) twins
      = exec (Seq (Register 1) (ConnectionTimeout 1)) twins.
Proof.
  apply (registry_calls_never_raise (Seq (Register 1) (ConnectionTimeout 1)) twins).
  reflexivity.
Defined.

End Invariants.
